(** * Lexicon queries of [main.py]: a shallow embedding and its properties

    The program loads a word list and filters it by length, by substring,
    by prefix/suffix ([cherche1]) and by a compound pattern ([cherche2]).

    Python values are embedded as follows.
    - A [str] is the list of its code points ([word]); [len] counts them.
    - A [set] of [str] is a [gset word]; a set comprehension is [filter].
    - An [int] is a [Z].
    - An argument that is "a [str] or a list of [str]" is the tagged union
      [strs]; [isinstance(x, str)] is the test on its tag.
    - The [while] loop of [cherche2] is run with fuel; [None] stands for a
      loop that has not finished, and is shown never to happen. *)

From Stdlib Require Import ZArith Lia.
From stdpp Require Import base option list sets gmap strings.

(** ** Python strings *)

Abbreviation word := (list N).

Module PyStr.

(** [len(s)] *)
Definition len (s : word) : Z := Z.of_nat (length s).

(** [mot.startswith(pref)] *)
Fixpoint startswith (mot pref : word) : bool :=
  match pref, mot with
  | [], _ => true
  | _ :: _, [] => false
  | c :: pref', d :: mot' => (c =? d)%N && startswith mot' pref'
  end.

(** [mot.endswith(suf)]: the window of [len(suf)] code points that ends
    the word is compared with [suf]; a longer [suf] never matches. *)
Definition endswith (mot suf : word) : bool :=
  (length suf <=? length mot)%nat
  && startswith (drop (length mot - length suf) mot) suf.

(** Offset of the first occurrence of [sub] in [l], if any. *)
Fixpoint first_occ (sub l : word) : option nat :=
  if startswith l sub then Some 0%nat
  else match l with
       | [] => None
       | _ :: l' => S <$> first_occ sub l'
       end.

(** [mot.find(sub, start)]: lowest index [i >= start] at which [sub]
    occurs in [mot], or [-1].  A negative [start] counts from the end and
    is clipped at 0; a [start] beyond the end finds nothing, not even the
    empty string. *)
Definition find (mot sub : word) (start : Z) : Z :=
  let n := len mot in
  let s := if (start <? 0)%Z then Z.max 0 (start + n) else start in
  if (n <? s)%Z then (-1)%Z
  else match first_occ sub (drop (Z.to_nat s) mot) with
       | Some i => (s + Z.of_nat i)%Z
       | None => (-1)%Z
       end.

(** [sub in mot] *)
Definition str_in (sub mot : word) : bool :=
  negb (find mot sub 0 =? -1)%Z.

(** [c.isspace()] on a code point. *)
Definition isspace (c : N) : bool :=
  ((9 <=? c) && (c <=? 13) || (28 <=? c) && (c <=? 32)
   || (c =? 133) || (c =? 160) || (c =? 5760)
   || (8192 <=? c) && (c <=? 8202)
   || (c =? 8232) || (c =? 8233) || (c =? 8239) || (c =? 8287)
   || (c =? 12288))%N.

Fixpoint lstrip (s : word) : word :=
  match s with
  | c :: s' => if isspace c then lstrip s' else s
  | [] => []
  end.

(** [s.strip()] *)
Definition strip (s : word) : word := rev (lstrip (rev (lstrip s))).

(** [any(f(x) for x in l)] *)
Definition any {A} (f : A → bool) (l : list A) : bool := existsb f l.

(** A word written with ASCII letters only. *)
Definition ascii_word (s : string) : word :=
  map Ascii.N_of_ascii (String.list_ascii_of_string s).

End PyStr.

Import PyStr.

(** ** The query functions of [main.py] *)

(** [{mot for mot in mots if len(mot) == n}] *)
Definition mots_de_n_lettres (mots : gset word) (n : Z) : gset word :=
  filter (λ mot, Is_true (len mot =? n)%Z) mots.

(** [{mot for mot in mots if s in mot}] *)
Definition mots_avec (mots : gset word) (s : word) : gset word :=
  filter (λ mot, Is_true (str_in s mot)) mots.

(** [{mot for mot in mots
      if len(mot) == n and mot.startswith(start) and mot.endswith(stop)}] *)
Definition cherche1 (mots : gset word) (start stop : word) (n : Z) : gset word :=
  filter (λ mot, Is_true ((len mot =? n)%Z && startswith mot start
                          && endswith mot stop)) mots.

(** *** [cherche2] *)

(** The three pattern arguments: a single [str], or a list of [str]. *)
Inductive strs : Type :=
  | Str (s : word)
  | Lst (l : list word).

(** [if isinstance(x, str): x = [x]] *)
Definition as_list (x : strs) : list word :=
  match x with
  | Str s => [s]
  | Lst l => l
  end.

(** The loop [while idx != -1: ...] over the occurrences of [milieu],
    entered with the current value of [idx].  [Some true] is the [break]
    with [contient_au_milieu = True], [Some false] the normal exit. *)
Fixpoint boucle_idx (fuel : nat) (mot milieu : word) (idx : Z) : option bool :=
  match fuel with
  | O => None
  | S fuel' =>
      if (idx =? -1)%Z then Some false
      else if (0 <? idx)%Z && (idx + len milieu <? len mot)%Z then Some true
      else boucle_idx fuel' mot milieu (find mot milieu (idx + 1))
  end.

(** One iteration of [for milieu in lmid]: [idx = mot.find(milieu)] and
    the [while] loop. *)
Definition cherche_milieu (mot milieu : word) : option bool :=
  boucle_idx (S (S (length mot))) mot milieu (find mot milieu 0).

(** [for milieu in lmid: ... if contient_au_milieu: break], started with
    [contient_au_milieu = False]; the result is the final value of the
    flag. *)
Fixpoint boucle_milieux (mot : word) (lmid : list word) : option bool :=
  match lmid with
  | [] => Some false
  | milieu :: reste =>
      b ← cherche_milieu mot milieu;
      if b : bool then Some true else boucle_milieux mot reste
  end.

(** The body of [for mot in mots], as a function of [resultat]. *)
Definition corps (lstart lmid lstop : list word) (nmin nmax : Z)
    (mot : word) (resultat : gset word) : option (gset word) :=
  let longueur := len mot in
  if (longueur <? nmin)%Z || (nmax <? longueur)%Z then Some resultat
  else if negb (any (startswith mot) lstart) then Some resultat
  else if negb (any (endswith mot) lstop) then Some resultat
  else
    contient_au_milieu ← boucle_milieux mot lmid;
    if negb contient_au_milieu then Some resultat
    else Some ({[ mot ]} ∪ resultat).

(** A [for] loop over a list that threads a state. *)
Fixpoint pour_chaque {A S} (f : A → S → option S) (l : list A) (s : S)
    : option S :=
  match l with
  | [] => Some s
  | x :: l' => s' ← f x s; pour_chaque f l' s'
  end.

Definition cherche2 (mots : gset word) (lstart lmid lstop : strs)
    (nmin nmax : Z) : option (gset word) :=
  let lstart := as_list lstart in
  let lmid := as_list lmid in
  let lstop := as_list lstop in
  pour_chaque (corps lstart lmid lstop nmin nmax) (elements mots) ∅.

(** ** Loading *)

(** What [read_data] and [ensemble_mots] can raise. *)
Inductive exception : Type :=
  | FileNotFoundError
  | UnicodeDecodeError
  | OSError.

Section Loader.

(** [open(filename, mode="r", encoding="utf8")] followed by the iteration
    over the lines of the file: the decoded lines, or the exception that
    opening or decoding raises. *)
Variable ouvrir : string → exception + list word.

(** [[line.strip() for line in file]] *)
Definition read_data (filename : string) : exception + list word :=
  match ouvrir filename with
  | inl e => inl e
  | inr lignes => inr (map strip lignes)
  end.

(** [set(read_data(filename))] *)
Definition ensemble_mots (filename : string) : exception + gset word :=
  match read_data filename with
  | inl e => inl e
  | inr mots => inr (list_to_set mots)
  end.

(** The loader the specification describes: [load_ordered] with its
    duplicates removed, kept as a set. *)
Definition load_set_spec (filename : string) : exception + gset word :=
  match read_data filename with
  | inl e => inl e
  | inr mots => inr (list_to_set (remove_dups mots))
  end.

End Loader.

(** ** Global constants *)

(** [list(s)] on a [str]: its one-letter strings, in order. *)
Definition py_list (s : word) : list word := map (λ c, [c]) s.

Definition FILENAME : string := "corpus.txt".
Definition ALPHABET : list word := py_list (ascii_word "abcdefghijklmnopqrstuvwxyz").
Definition VOYELLES : list word := py_list (ascii_word "aeiouy").
Definition CONSONNES : list word := py_list (ascii_word "bcdfghjklmnpqrstvwxz").

(** ** Vocabulary of the statements *)

(** A string of whitespace only. *)
Definition blanc (s : word) : Prop := forallb isspace s = true.

(** A string that neither starts nor ends with whitespace. *)
Definition net (s : word) : Prop :=
  (∀ c r, s = c :: r → isspace c = false)
  ∧ (∀ r c, s = r ++ [c] → isspace c = false).

(** [sub] occurs in [mot] at offset [i]. *)
Definition occurs_at (mot sub : word) (i : nat) : Prop :=
  ∃ a b, mot = a ++ sub ++ b ∧ length a = i.

(** An occurrence at [i] that touches neither end of the word. *)
Definition strict_interior (mot sub : word) (i : nat) : Prop :=
  occurs_at mot sub i ∧ (0 < i)%nat ∧ (i + length sub < length mot)%nat.

(** The contract of the compound search for one word: length within
    bounds, one of the prefixes, one of the suffixes, and one of the
    interior strings at a strictly interior offset. *)
Definition compound_match (lstart lmid lstop : list word) (nmin nmax : Z)
    (w : word) : Prop :=
  (nmin ≤ len w ≤ nmax)%Z
  ∧ (∃ p, p ∈ lstart ∧ p `prefix_of` w)
  ∧ (∃ s, s ∈ lstop ∧ s `suffix_of` w)
  ∧ (∃ m i, m ∈ lmid ∧ strict_interior w m i).

(** The lengths that occur in a lexicon. *)
Definition longueurs (L : gset word) : gset Z := set_map len L.

Example find_vide_fin : find (ascii_word "abc") [] 3 = 3%Z ∧ find (ascii_word "abc") [] 4 = (-1)%Z.
Proof. split; reflexivity. Qed.

Example find_chevauche :
  find (ascii_word "aaaa") (ascii_word "aa") 0 = 0%Z
  ∧ find (ascii_word "aaaa") (ascii_word "aa") 1 = 1%Z
  ∧ find (ascii_word "aaaa") (ascii_word "aa") 3 = (-1)%Z.
Proof. repeat split; reflexivity. Qed.

Example cherche_milieu_aaaa :
  cherche_milieu (ascii_word "aaaa") (ascii_word "aa") = Some true
  ∧ cherche_milieu (ascii_word "aaa") (ascii_word "aa") = Some false.
Proof. split; reflexivity. Qed.

(** ** Python strings: what the primitives compute *)

Module PyStrFacts.

Lemma startswith_prefix (mot pref : word) :
  startswith mot pref = true ↔ pref `prefix_of` mot.
Proof.
  revert mot. induction pref as [|c pref IH]; intros [|d mot]; simpl.
  - split; [intros _; apply prefix_nil | done].
  - split; [intros _; apply prefix_nil | done].
  - split; [done | intros H; by apply prefix_nil_inv in H].
  - rewrite andb_true_iff, N.eqb_eq, IH. split.
    + intros [-> H]. by apply prefix_cons.
    + intros H. split.
      * by apply prefix_cons_inv_1 in H.
      * by apply prefix_cons_inv_2 in H.
Qed.

Lemma endswith_suffix (mot suf : word) :
  endswith mot suf = true ↔ suf `suffix_of` mot.
Proof.
  unfold endswith. rewrite andb_true_iff, Nat.leb_le, startswith_prefix. split.
  - intros [Hle [k Hk]].
    assert (Hlen : length (drop (length mot - length suf) mot) = length suf)
      by (rewrite length_drop; lia).
    rewrite Hk, length_app in Hlen.
    assert (k = []) as -> by (apply length_zero_iff_nil; lia).
    rewrite app_nil_r in Hk.
    exists (take (length mot - length suf) mot).
    pose proof (take_drop (length mot - length suf) mot) as E.
    rewrite Hk in E. by symmetry.
  - intros [k ->]. rewrite length_app. split; [lia|].
    replace (length k + length suf - length suf)%nat with (length k) by lia.
    by rewrite drop_app_length.
Qed.

Lemma occurs_at_drop (mot sub : word) (i : nat) :
  occurs_at mot sub i ↔ (i ≤ length mot)%nat ∧ startswith (drop i mot) sub = true.
Proof.
  rewrite startswith_prefix. split.
  - intros (a & b & -> & <-). split.
    + rewrite length_app. lia.
    + rewrite drop_app_length. by exists b.
  - intros [Hle [b Hb]]. exists (take i mot), b. split.
    + by rewrite <- Hb, take_drop.
    + rewrite length_take. lia.
Qed.

Lemma occurs_at_length (mot sub : word) (i : nat) :
  occurs_at mot sub i → (i + length sub ≤ length mot)%nat.
Proof. intros (a & b & -> & <-). rewrite !length_app. lia. Qed.

Lemma first_occ_Some (sub l : word) (i : nat) :
  first_occ sub l = Some i →
  occurs_at l sub i ∧ ∀ j, (j < i)%nat → ¬ occurs_at l sub j.
Proof.
  revert i. induction l as [|x l IH]; intros i; cbn [first_occ].
  - destruct (startswith [] sub) eqn:E; [|done].
    intros [= <-]. split; [|lia].
    apply occurs_at_drop. cbn [drop length]. split; [lia | done].
  - destruct (startswith (x :: l) sub) eqn:E.
    + intros [= <-]. split; [|lia].
      apply occurs_at_drop. cbn [drop length]. split; [lia | done].
    + destruct (first_occ sub l) as [k|] eqn:Ek; [|done].
      intros [= <-]. destruct (IH k eq_refl) as [Hk Hmin]. split.
      * apply occurs_at_drop. apply occurs_at_drop in Hk. cbn [drop length]. split; [lia | tauto].
      * intros [|j] Hj Hocc.
        -- apply occurs_at_drop in Hocc. cbn [drop length] in Hocc. destruct Hocc. congruence.
        -- apply (Hmin j); [lia|].
           apply occurs_at_drop. apply occurs_at_drop in Hocc. cbn [drop length] in Hocc.
           split; [lia | tauto].
Qed.

Lemma first_occ_None (sub l : word) :
  first_occ sub l = None → ∀ j, ¬ occurs_at l sub j.
Proof.
  induction l as [|x l IH]; cbn [first_occ].
  - destruct (startswith [] sub) eqn:E; [done|].
    intros _ j Hocc. apply occurs_at_drop in Hocc. destruct Hocc as [Hj Hs].
    cbn [length] in Hj. assert (j = 0%nat) as -> by lia. cbn [drop] in Hs. congruence.
  - destruct (startswith (x :: l) sub) eqn:E; [done|].
    destruct (first_occ sub l) as [k|] eqn:Ek; [done|].
    intros _ [|j] Hocc.
    + apply occurs_at_drop in Hocc. cbn [drop length] in Hocc. destruct Hocc. congruence.
    + apply (IH eq_refl j).
      apply occurs_at_drop. apply occurs_at_drop in Hocc. cbn [drop length] in Hocc.
      split; [lia | tauto].
Qed.

Lemma occurs_at_shift (mot sub : word) (s i : nat) :
  (s ≤ length mot)%nat →
  occurs_at (drop s mot) sub i ↔ occurs_at mot sub (s + i).
Proof.
  intros Hs. rewrite !occurs_at_drop, drop_drop, length_drop.
  split; intros [H1 H2]; (split; [lia | done]).
Qed.

(** [find] from a non-negative [start]: the first occurrence at or after
    [start], or [-1] when there is none. *)
Lemma find_spec (mot sub : word) (s : nat) :
  (find mot sub (Z.of_nat s) = (-1)%Z
   ∧ ∀ j, (s ≤ j)%nat → ¬ occurs_at mot sub j)
  ∨ (∃ i, find mot sub (Z.of_nat s) = Z.of_nat i ∧ (s ≤ i)%nat
          ∧ occurs_at mot sub i
          ∧ ∀ j, (s ≤ j < i)%nat → ¬ occurs_at mot sub j).
Proof.
  unfold find, len.
  destruct (Z.ltb_spec (Z.of_nat s) 0) as [?|_]; [lia|].
  destruct (Z.ltb_spec (Z.of_nat (length mot)) (Z.of_nat s)) as [Hlt|Hge].
  - left. split; [done|]. intros j Hj Hocc.
    apply occurs_at_length in Hocc. lia.
  - rewrite Nat2Z.id.
    destruct (first_occ sub (drop s mot)) as [i|] eqn:E.
    + right. destruct (first_occ_Some _ _ _ E) as [Hocc Hmin].
      exists (s + i)%nat. split; [lia|]. split; [lia|]. split.
      * apply occurs_at_shift in Hocc; [done | lia].
      * intros j Hj Hj'. apply (Hmin (j - s)%nat); [lia|].
        apply occurs_at_shift; [lia|].
        by replace (s + (j - s))%nat with j by lia.
    + left. split; [done|]. intros j Hj Hocc.
      apply (first_occ_None _ _ E (j - s)%nat).
      apply occurs_at_shift; [lia|].
      by replace (s + (j - s))%nat with j by lia.
Qed.

Lemma str_in_occurs (sub mot : word) :
  str_in sub mot = true ↔ ∃ i, occurs_at mot sub i.
Proof.
  unfold str_in. rewrite negb_true_iff, Z.eqb_neq.
  destruct (find_spec mot sub 0) as [[Hf Hno]|(i & Hf & _ & Hocc & _)];
    change (Z.of_nat 0) with 0%Z in Hf; rewrite Hf.
  - split; [done|]. intros [j Hj]. exfalso. apply (Hno j); [lia | done].
  - split; [eauto | lia].
Qed.

Lemma any_exists {A} (f : A → bool) (l : list A) :
  any f l = true ↔ ∃ x, x ∈ l ∧ f x = true.
Proof.
  unfold any. rewrite existsb_exists.
  split; intros (x & Hx & Hf); exists x; (split; [by apply list_elem_of_In | done]).
Qed.

End PyStrFacts.

Import PyStrFacts.

(** ** The loops of [cherche2] *)

Module Boucles.

(** The [while] loop entered with [idx = mot.find(milieu, s)] ends within
    the fuel left, and finds a strictly interior occurrence at or after
    [s] exactly when there is one. *)
Lemma boucle_idx_find (mot milieu : word) (fuel s : nat) :
  (1 ≤ fuel)%nat → (S (S (length mot)) ≤ fuel + s)%nat →
  ∃ b, boucle_idx fuel mot milieu (find mot milieu (Z.of_nat s)) = Some b
       ∧ (b = true ↔ ∃ j, (s ≤ j)%nat ∧ strict_interior mot milieu j).
Proof.
  revert s. induction fuel as [|fuel IH]; intros s Hpos Hfuel; [lia|].
  cbn [boucle_idx].
  destruct (find_spec mot milieu s) as [[Hf Hno]|(i & Hf & Hsi & Hocc & Hmin)];
    rewrite Hf.
  - exists false. split; [done|]. split; [done|].
    intros (j & Hj & Hocc & _). by destruct (Hno j Hj).
  - pose proof (occurs_at_length _ _ _ Hocc) as Hlen.
    destruct (Z.eqb_spec (Z.of_nat i) (-1)) as [?|_]; [lia|].
    destruct ((0 <? Z.of_nat i)%Z && (Z.of_nat i + len milieu <? len mot)%Z)
      eqn:Hchk.
    + exists true. split; [done|]. split; [|done]. intros _.
      apply andb_true_iff in Hchk as [H1 H2].
      apply Z.ltb_lt in H1, H2. unfold len in H2.
      exists i. split; [done|]. split; [done|]. lia.
    + replace (Z.of_nat i + 1)%Z with (Z.of_nat (S i)) by lia.
      destruct (IH (S i)) as (b & Hb & Hiff); [lia | lia |].
      exists b. split; [done|]. rewrite Hiff. split.
      * intros (j & Hj & Hint). exists j. split; [lia | done].
      * intros (j & Hj & Hint). exists j. split; [|done].
        destruct (decide (j = i)) as [->|Hne].
        -- destruct Hint as (_ & H1 & H2).
           apply andb_false_iff in Hchk as [Hc|Hc];
             apply Z.ltb_ge in Hc; unfold len in Hc; lia.
        -- destruct (decide (j < i)%nat) as [Hlt|Hge]; [|lia].
           destruct Hint as (Hoccj & _). destruct (Hmin j); [lia | done].
Qed.

(** More fuel than needed changes nothing. *)
Lemma boucle_idx_fuel (mot milieu : word) (fuel fuel' : nat) (idx : Z) (b : bool) :
  boucle_idx fuel mot milieu idx = Some b → (fuel ≤ fuel')%nat →
  boucle_idx fuel' mot milieu idx = Some b.
Proof.
  revert fuel' idx. induction fuel as [|fuel IH]; intros fuel' idx; [done|].
  destruct fuel' as [|fuel']; [lia|]. cbn [boucle_idx].
  destruct (idx =? -1)%Z; [done|].
  destruct ((0 <? idx)%Z && (idx + len milieu <? len mot)%Z); [done|].
  intros H Hle. apply IH; [done | lia].
Qed.

Lemma cherche_milieu_spec (mot milieu : word) :
  ∃ b, cherche_milieu mot milieu = Some b
       ∧ (b = true ↔ ∃ j, strict_interior mot milieu j).
Proof.
  unfold cherche_milieu.
  destruct (boucle_idx_find mot milieu (S (S (length mot))) 0) as (b & Hb & Hiff);
    [lia | lia |].
  exists b. split; [done|]. rewrite Hiff. split.
  - intros (j & _ & H). eauto.
  - intros (j & H). exists j. split; [lia | done].
Qed.

Lemma boucle_milieux_spec (mot : word) (lmid : list word) :
  ∃ b, boucle_milieux mot lmid = Some b
       ∧ (b = true ↔ ∃ m j, m ∈ lmid ∧ strict_interior mot m j).
Proof.
  induction lmid as [|milieu reste IH]; cbn [boucle_milieux].
  - exists false. split; [done|]. split; [done|].
    intros (m & j & Hm & _). by apply elem_of_nil in Hm.
  - destruct (cherche_milieu_spec mot milieu) as (b & -> & Hb). cbn.
    destruct b.
    + exists true. split; [done|]. split; [|done]. intros _.
      destruct Hb as [Hb _]. destruct (Hb eq_refl) as [j Hj].
      exists milieu, j. split; [apply list_elem_of_here | done].
    + destruct IH as (b' & Hb' & Hiff). exists b'. split; [done|].
      rewrite Hiff. split.
      * intros (m & j & Hm & Hint). exists m, j.
        split; [by apply list_elem_of_further | done].
      * intros (m & j & Hm & Hint). apply elem_of_cons in Hm as [->|Hm].
        -- destruct Hb as [_ Hb]. discriminate Hb. eauto.
        -- eauto.
Qed.

(** One iteration of [for mot in mots] adds [mot] exactly when it meets
    the contract. *)
Lemma corps_spec (lstart lmid lstop : list word) (nmin nmax : Z)
    (mot : word) (resultat : gset word) :
  ∃ R, corps lstart lmid lstop nmin nmax mot resultat = Some R
       ∧ ∀ w, w ∈ R ↔
              w ∈ resultat
              ∨ (w = mot ∧ compound_match lstart lmid lstop nmin nmax mot).
Proof.
  unfold corps, compound_match.
  destruct ((len mot <? nmin)%Z || (nmax <? len mot)%Z) eqn:Hlen.
  { exists resultat. split; [done|]. intros w. split; [tauto|].
    intros [?|[_ [Hb _]]]; [done|].
    apply orb_true_iff in Hlen as [H|H]; apply Z.ltb_lt in H; lia. }
  apply orb_false_iff in Hlen as [H1 H2]. apply Z.ltb_ge in H1, H2.
  destruct (any (startswith mot) lstart) eqn:Hp; cbn [negb].
  2:{ exists resultat. split; [done|]. intros w. split; [tauto|].
      intros [?|[_ (_ & (p & Hin & Hpre) & _)]]; [done|].
      assert (any (startswith mot) lstart = true); [|congruence].
      apply any_exists. exists p. by rewrite startswith_prefix. }
  destruct (any (endswith mot) lstop) eqn:Hs; cbn [negb].
  2:{ exists resultat. split; [done|]. intros w. split; [tauto|].
      intros [?|[_ (_ & _ & (s & Hin & Hsuf) & _)]]; [done|].
      assert (any (endswith mot) lstop = true); [|congruence].
      apply any_exists. exists s. by rewrite endswith_suffix. }
  apply any_exists in Hp as (p & Hp & Hpre). apply startswith_prefix in Hpre.
  apply any_exists in Hs as (s & Hs & Hsuf). apply endswith_suffix in Hsuf.
  destruct (boucle_milieux_spec mot lmid) as (b & -> & Hb). cbn.
  destruct b; cbn [negb].
  - exists ({[mot]} ∪ resultat). split; [done|]. intros w.
    rewrite elem_of_union, elem_of_singleton. split.
    + intros [->|?]; [|tauto]. right. split; [done|].
      split; [lia|]. split; [eauto|]. split; [eauto|]. by apply Hb.
    + intros [?|[-> _]]; tauto.
  - exists resultat. split; [done|]. intros w. split; [tauto|].
    intros [?|[_ (_ & _ & _ & Hm)]]; [done|].
    apply Hb in Hm. discriminate.
Qed.

Lemma pour_chaque_corps (lstart lmid lstop : list word) (nmin nmax : Z)
    (l : list word) (resultat : gset word) :
  ∃ R, pour_chaque (corps lstart lmid lstop nmin nmax) l resultat = Some R
       ∧ ∀ w, w ∈ R ↔
              w ∈ resultat
              ∨ (w ∈ l ∧ compound_match lstart lmid lstop nmin nmax w).
Proof.
  revert resultat. induction l as [|mot l IH]; intros resultat; cbn [pour_chaque].
  - exists resultat. split; [done|]. intros w. split; [tauto|].
    intros [?|[H _]]; [done|]. by apply elem_of_nil in H.
  - destruct (corps_spec lstart lmid lstop nmin nmax mot resultat)
      as (R1 & -> & H1). cbn.
    destruct (IH R1) as (R & HR & H2). exists R. split; [done|].
    intros w. rewrite H2, H1, elem_of_cons. split.
    + intros [[?|[-> ?]]|[? ?]]; tauto.
    + intros [?|[[->|?] ?]]; tauto.
Qed.

(** [cherche2] on lists: it returns, and what it returns. *)
Lemma cherche2_sound (mots : gset word) (lstart lmid lstop : strs) (nmin nmax : Z) :
  ∃ R, cherche2 mots lstart lmid lstop nmin nmax = Some R
       ∧ ∀ w, w ∈ R ↔
              w ∈ mots
              ∧ compound_match (as_list lstart) (as_list lmid) (as_list lstop)
                  nmin nmax w.
Proof.
  unfold cherche2.
  destruct (pour_chaque_corps (as_list lstart) (as_list lmid) (as_list lstop)
              nmin nmax (elements mots) ∅) as (R & HR & H).
  exists R. split; [done|]. intros w. rewrite H, elem_of_elements.
  split; [intros [Hw|?]; [by apply not_elem_of_empty in Hw | done] | tauto].
Qed.

End Boucles.

Import Boucles.

(** ** Length filter, substring filter, anchored search *)

Lemma elem_of_mots_de_n_lettres (L : gset word) (n : Z) (w : word) :
  w ∈ mots_de_n_lettres L n ↔ w ∈ L ∧ len w = n.
Proof.
  unfold mots_de_n_lettres. rewrite elem_of_filter.
  destruct (Z.eqb_spec (len w) n); simpl; tauto.
Qed.

Lemma elem_of_mots_avec (L : gset word) (s w : word) :
  w ∈ mots_avec L s ↔ w ∈ L ∧ ∃ i, occurs_at w s i.
Proof.
  unfold mots_avec. rewrite elem_of_filter, Is_true_true, str_in_occurs. tauto.
Qed.

Lemma elem_of_cherche1 (L : gset word) (p s : word) (n : Z) (w : word) :
  w ∈ cherche1 L p s n ↔ w ∈ L ∧ len w = n ∧ p `prefix_of` w ∧ s `suffix_of` w.
Proof.
  unfold cherche1.
  rewrite elem_of_filter, Is_true_true, !andb_true_iff, Z.eqb_eq,
    startswith_prefix, endswith_suffix.
  tauto.
Qed.

(** C5. [mots_de_n_lettres L n] is exactly the part of [L] whose words have
    [n] code points; two different lengths give disjoint parts; and the
    parts for the lengths that occur in [L] together make up [L]. *)
Theorem mots_de_n_lettres_partition (L : gset word) :
  (∀ n w, w ∈ mots_de_n_lettres L n ↔ w ∈ L ∧ len w = n)
  ∧ (∀ n1 n2, n1 ≠ n2 → mots_de_n_lettres L n1 ## mots_de_n_lettres L n2)
  ∧ ⋃ (mots_de_n_lettres L <$> elements (longueurs L)) = L.
Proof.
  split; [|split].
  - intros n w. apply elem_of_mots_de_n_lettres.
  - intros n1 n2 Hne w H1 H2.
    apply elem_of_mots_de_n_lettres in H1, H2. destruct H1, H2. congruence.
  - apply set_eq. intros w. rewrite elem_of_union_list. split.
    + intros (X & HX & Hw). apply list_elem_of_fmap in HX as (n & -> & _).
      by apply elem_of_mots_de_n_lettres in Hw as [? _].
    + intros Hw. exists (mots_de_n_lettres L (len w)). split.
      * apply list_elem_of_fmap. exists (len w). split; [done|].
        apply elem_of_elements. unfold longueurs.
        apply elem_of_map. by exists w.
      * by apply elem_of_mots_de_n_lettres.
Qed.

Lemma mots_de_n_lettres_partition_witness :
  (1 ≠ 2)%Z
  ∧ mots_de_n_lettres {[ ascii_word "a"; ascii_word "bc" ]} 1
    ## mots_de_n_lettres {[ ascii_word "a"; ascii_word "bc" ]} 2.
Proof.
  split; [lia|].
  apply (proj1 (proj2 (mots_de_n_lettres_partition
                         {[ ascii_word "a"; ascii_word "bc" ]}))).
  lia.
Defined.

(** C7. [mots_avec L fragment] is exactly the part of [L] whose words hold
    [fragment] at some offset, compared code point by code point; with the
    empty fragment it is [L]. *)
Theorem mots_avec_contract (L : gset word) (fragment : word) :
  (∀ w, w ∈ mots_avec L fragment ↔ w ∈ L ∧ ∃ i, occurs_at w fragment i)
  ∧ mots_avec L [] = L.
Proof.
  split.
  - intros w. apply elem_of_mots_avec.
  - apply set_eq. intros w. rewrite elem_of_mots_avec. split; [tauto|].
    intros Hw. split; [done|]. by exists 0%nat, [], w.
Qed.

(** C4, as the code has it.  [cherche1 L p s n] is exactly the part of [L]
    whose words have [n] code points, start with [p] and end with [s].
    The two windows may overlap: a word is found with itself as prefix and
    as suffix.  The result is empty when [p] or [s] alone is longer than
    [n]. *)
Theorem cherche1_contract (L : gset word) (p s : word) (n : Z) :
  (∀ w, w ∈ cherche1 L p s n
        ↔ w ∈ L ∧ len w = n ∧ p `prefix_of` w ∧ s `suffix_of` w)
  ∧ (∀ w, w ∈ L → w ∈ cherche1 L w w (len w))
  ∧ ((n < len p)%Z ∨ (n < len s)%Z → cherche1 L p s n = ∅).
Proof.
  split; [|split].
  - intros w. apply elem_of_cherche1.
  - intros w Hw. apply elem_of_cherche1. done.
  - intros Hlen. apply set_eq. intros w. rewrite elem_of_cherche1.
    split; [|intros H; by apply not_elem_of_empty in H].
    intros (_ & Hn & Hp & Hs). exfalso.
    apply prefix_length in Hp. apply suffix_length in Hs.
    unfold len in *. lia.
Qed.

Lemma cherche1_contract_witness :
  ((1 < len (ascii_word "zz"))%Z ∨ (1 < len (ascii_word "z"))%Z)
  ∧ cherche1 {[ ascii_word "zz" ]} (ascii_word "zz") (ascii_word "z") 1 = ∅.
Proof.
  split; [left; reflexivity|].
  apply (proj2 (proj2 (cherche1_contract {[ ascii_word "zz" ]}
                         (ascii_word "zz") (ascii_word "z") 1))).
  left. reflexivity.
Defined.

(** C4, as the specification has it, fails: the word [zz] has 2 code
    points, the prefix [zz] and the suffix [zz] have 4 together, and the
    word is found. *)
Lemma cherche1_overlap_nonempty :
  (len (ascii_word "zz") + len (ascii_word "zz") > 2)%Z
  ∧ cherche1 {[ ascii_word "zz" ]} (ascii_word "zz") (ascii_word "zz") 2
    = {[ ascii_word "zz" ]}
  ∧ cherche1 {[ ascii_word "zz" ]} (ascii_word "zz") (ascii_word "zz") 2 ≠ ∅.
Proof.
  assert (E : cherche1 {[ ascii_word "zz" ]} (ascii_word "zz") (ascii_word "zz") 2
              = {[ ascii_word "zz" ]}).
  { apply set_eq. intros w. rewrite elem_of_cherche1, elem_of_singleton.
    split; [tauto|]. intros ->. done. }
  split; [reflexivity|]. split; [done|].
  rewrite E. intros H. apply (not_elem_of_empty (C:=gset word) (ascii_word "zz")).
  rewrite <- H. by apply elem_of_singleton.
Qed.

(** ** Compound search *)

(** C1. On lists, [cherche2] returns, and returns exactly the words of [L]
    whose length lies in [min_len, max_len], that start with one of the
    prefixes, end with one of the suffixes, and hold one of the interior
    strings at an offset [i > 0] with [i + len(m) < len(w)]. *)
Theorem cherche2_contract (L : gset word) (prefixes interiors suffixes : list word)
    (min_len max_len : Z) :
  ∃ R, cherche2 L (Lst prefixes) (Lst interiors) (Lst suffixes) min_len max_len
       = Some R
     ∧ ∀ w, w ∈ R ↔
         w ∈ L
         ∧ (min_len ≤ len w ≤ max_len)%Z
         ∧ (∃ p, p ∈ prefixes ∧ p `prefix_of` w)
         ∧ (∃ s, s ∈ suffixes ∧ s `suffix_of` w)
         ∧ (∃ m i, m ∈ interiors ∧ occurs_at w m i
                   ∧ (0 < i)%nat ∧ (i + length m < length w)%nat).
Proof.
  destruct (cherche2_sound L (Lst prefixes) (Lst interiors) (Lst suffixes)
              min_len max_len) as (R & HR & H).
  exists R. split; [done|]. intros w. rewrite H.
  unfold compound_match, strict_interior. cbn [as_list]. tauto.
Qed.

Example cherche2_alphabetisassiez :
  let w := ascii_word "alphab" ++ [233%N] ++ ascii_word "tisassiez" in
  cherche2 {[ w ]} (Str (ascii_word "a")) (Str (ascii_word "b"))
    (Str (ascii_word "z")) 16 16 = Some {[ w ]}.
Proof.
  intros w.
  destruct (cherche2_sound {[ w ]} (Str (ascii_word "a")) (Str (ascii_word "b"))
              (Str (ascii_word "z")) 16 16) as (R & -> & H).
  f_equal. apply set_eq. intros v. rewrite H, elem_of_singleton.
  split; [tauto|]. intros ->. split; [done|]. cbn [as_list].
  split; [done|]. split; [|split].
  - exists (ascii_word "a"). split; [apply list_elem_of_here|].
    by exists (ascii_word "lphab" ++ [233%N] ++ ascii_word "tisassiez").
  - exists (ascii_word "z"). split; [apply list_elem_of_here|].
    by exists (ascii_word "alphab" ++ [233%N] ++ ascii_word "tisassie").
  - exists (ascii_word "b"), 5%nat. split; [apply list_elem_of_here|].
    split; [|split; cbn; lia].
    by exists (ascii_word "alpha"), ([233%N] ++ ascii_word "tisassiez").
Qed.

Lemma strict_interior_nil (w : word) (i : nat) :
  strict_interior w [] i ↔ (1 ≤ i ≤ length w - 1)%nat ∧ (2 ≤ length w)%nat.
Proof.
  unfold strict_interior. cbn [length]. split.
  - intros (_ & H1 & H2). lia.
  - intros [H1 H2]. split; [|lia].
    apply occurs_at_drop. split; [lia | by destruct (drop i w)].
Qed.

(** C2. When the empty string is one of the interior strings, the interior
    test of [cherche2] succeeds exactly on the words of at least 2 code
    points: the empty string is strictly interior at the offsets
    [1 .. len(w) - 1] and at no other, so a word of 0 or 1 code points has
    none. *)
Theorem interieur_vide (w : word) (interiors : list word) :
  [] ∈ interiors →
  boucle_milieux w interiors = Some (bool_decide (2 ≤ length w)%nat)
  ∧ cherche_milieu w [] = Some (bool_decide (2 ≤ length w)%nat)
  ∧ (∀ i, strict_interior w [] i ↔ (1 ≤ i)%nat ∧ (i < length w)%nat)
  ∧ ((length w < 2)%nat → ∀ i, ¬ strict_interior w [] i).
Proof.
  intros Hin. split; [|split; [|split]].
  - destruct (boucle_milieux_spec w interiors) as (b & -> & Hb). f_equal.
    apply eq_bool_prop_intro. rewrite bool_decide_spec, Is_true_true, Hb. split.
    + intros (m & i & _ & _ & H1 & H2). lia.
    + intros Hlen. exists [], 1%nat. split; [done|].
      apply strict_interior_nil. lia.
  - destruct (cherche_milieu_spec w []) as (b & -> & Hb). f_equal.
    apply eq_bool_prop_intro. rewrite bool_decide_spec, Is_true_true, Hb. split.
    + intros (i & H). apply strict_interior_nil in H. lia.
    + intros Hlen. exists 1%nat. apply strict_interior_nil. lia.
  - intros i. rewrite strict_interior_nil. lia.
  - intros Hlen i H. apply strict_interior_nil in H. lia.
Qed.

Lemma interieur_vide_witness :
  [] ∈ [ascii_word "k"; []]
  ∧ boucle_milieux (ascii_word "ab") [ascii_word "k"; []] = Some true
  ∧ boucle_milieux (ascii_word "a") [ascii_word "k"; []] = Some false.
Proof.
  assert (H : [] ∈ [ascii_word "k"; []])
    by (apply list_elem_of_further, list_elem_of_here).
  split; [exact H|]. split.
  - exact (proj1 (interieur_vide (ascii_word "ab") [ascii_word "k"; []] H)).
  - exact (proj1 (interieur_vide (ascii_word "a") [ascii_word "k"; []] H)).
Defined.

(** C3. Let the non-empty string [m] occur in [w] at an offset [i] that
    touches an end of the word.  The loop entered at [i] does not stop
    there: the test fails, and the loop goes on with the next occurrence,
    searched from [i + 1].  It ends, with [True] exactly when a later
    occurrence, which may overlap the first, is strictly inside the word.
    When [i = 0] this is where the search for [m] starts.  So a later
    strictly interior occurrence makes the loop, the search for [m] and
    the interior test of any collection that holds [m] succeed. *)
Theorem occurrence_suivante (w m : word) (interiors : list word) (i : nat) :
  m ≠ [] → m ∈ interiors →
  occurs_at w m i → (i = 0 ∨ i + length m = length w)%nat →
  (∀ fuel, boucle_idx (S fuel) w m (Z.of_nat i)
           = boucle_idx fuel w m (find w m (Z.of_nat i + 1)))
  ∧ (∃ b, boucle_idx (S (S (length w))) w m (Z.of_nat i) = Some b
          ∧ (b = true ↔ ∃ j, (i < j)%nat ∧ strict_interior w m j))
  ∧ (∃ b, cherche_milieu w m = Some b
          ∧ (b = true ↔ ∃ j, strict_interior w m j))
  ∧ (i = 0%nat → find w m 0 = 0%Z)
  ∧ (∀ j, (i < j)%nat → strict_interior w m j →
       boucle_idx (S (S (length w))) w m (Z.of_nat i) = Some true
       ∧ cherche_milieu w m = Some true
       ∧ boucle_milieux w interiors = Some true).
Proof.
  intros _ Hin Hocc Hbord.
  assert (Hstep : ∀ fuel, boucle_idx (S fuel) w m (Z.of_nat i)
                          = boucle_idx fuel w m (find w m (Z.of_nat i + 1))).
  { intros fuel. cbn [boucle_idx].
    destruct (Z.eqb_spec (Z.of_nat i) (-1)) as [?|_]; [lia|].
    assert ((0 <? Z.of_nat i)%Z && (Z.of_nat i + len m <? len w)%Z = false)
      as ->; [|done].
    apply andb_false_iff. unfold len.
    destruct Hbord as [->|Hb]; [left | right]; apply Z.ltb_ge; lia. }
  assert (Hloop : ∃ b, boucle_idx (S (S (length w))) w m (Z.of_nat i) = Some b
                       ∧ (b = true ↔ ∃ j, (i < j)%nat ∧ strict_interior w m j)).
  { rewrite Hstep. replace (Z.of_nat i + 1)%Z with (Z.of_nat (S i)) by lia.
    destruct (boucle_idx_find w m (S (length w)) (S i)) as (b & Hb & Hiff);
      [lia | lia |].
    exists b. split; [done|]. rewrite Hiff.
    split; intros (j & Hj & Hint); exists j; (split; [lia | done]). }
  split; [done|]. split; [done|]. split; [apply cherche_milieu_spec|]. split.
  - intros ->.
    destruct (find_spec w m 0) as [[_ Hno]|(k & Hk & _ & _ & Hmin)].
    + destruct (Hno 0%nat); [lia | done].
    + change (Z.of_nat 0) with 0%Z in Hk. rewrite Hk.
      destruct k as [|k]; [done|]. destruct (Hmin 0%nat); [lia | done].
  - intros j Hij Hint. split; [|split].
    + destruct Hloop as (b & -> & Hb). f_equal. apply Hb. eauto.
    + destruct (cherche_milieu_spec w m) as (b & -> & Hb).
      f_equal. apply Hb. eauto.
    + destruct (boucle_milieux_spec w interiors) as (b & -> & Hb).
      f_equal. apply Hb. eauto.
Qed.

Lemma occurrence_suivante_witness :
  (boucle_idx 6 (ascii_word "aaaa") (ascii_word "aa") 0 = Some true
   ∧ cherche_milieu (ascii_word "aaaa") (ascii_word "aa") = Some true
   ∧ boucle_milieux (ascii_word "aaaa") [ascii_word "aa"] = Some true)
  ∧ (∃ b, boucle_idx 5 (ascii_word "aab") (ascii_word "aa") 0 = Some b
          ∧ (b = true ↔ ∃ j, (0 < j)%nat
                             ∧ strict_interior (ascii_word "aab") (ascii_word "aa") j)).
Proof.
  split.
  - apply (proj2 (proj2 (proj2 (proj2
      (occurrence_suivante (ascii_word "aaaa") (ascii_word "aa")
         [ascii_word "aa"] 0
         ltac:(discriminate) ltac:(apply list_elem_of_here)
         ltac:(by exists [], (ascii_word "aa")) ltac:(by left))))) 1%nat).
    + lia.
    + split; [by exists (ascii_word "a"), (ascii_word "a") | cbn; lia].
  - exact (proj1 (proj2
      (occurrence_suivante (ascii_word "aab") (ascii_word "aa")
         [ascii_word "aa"] 0
         ltac:(discriminate) ltac:(apply list_elem_of_here)
         ltac:(by exists [], (ascii_word "b")) ltac:(by left)))).
Defined.

(** The loop on [aab] and [aa]: the only occurrence is at offset 0, and
    the flag stays [False]. *)
Example boucle_idx_aab :
  boucle_idx 5 (ascii_word "aab") (ascii_word "aa") 0 = Some false
  ∧ cherche_milieu (ascii_word "aab") (ascii_word "aa") = Some false.
Proof. split; reflexivity. Qed.

(** C8. A single string for a pattern argument of [cherche2] gives what
    the one-element list of that string gives: for the three arguments at
    once, where both calls return the same set, and for each argument on
    its own, whatever the other two are. *)
Theorem cherche2_str_ou_liste (L : gset word) (a b c : word) (x y : strs)
    (nmin nmax : Z) :
  (∃ R, cherche2 L (Str a) (Str b) (Str c) nmin nmax = Some R
        ∧ cherche2 L (Lst [a]) (Lst [b]) (Lst [c]) nmin nmax = Some R)
  ∧ cherche2 L (Str a) x y nmin nmax = cherche2 L (Lst [a]) x y nmin nmax
  ∧ cherche2 L x (Str b) y nmin nmax = cherche2 L x (Lst [b]) y nmin nmax
  ∧ cherche2 L x y (Str c) nmin nmax = cherche2 L x y (Lst [c]) nmin nmax.
Proof.
  split; [|done].
  destruct (cherche2_sound L (Str a) (Str b) (Str c) nmin nmax) as (R & HR & _).
  exists R. split; [done|]. exact HR.
Qed.

(** C10. With an empty list for the prefixes, for the interior strings or
    for the suffixes, [cherche2] returns the empty set. *)
Theorem cherche2_collection_vide (L : gset word) (x y : strs) (nmin nmax : Z) :
  cherche2 L (Lst []) x y nmin nmax = Some ∅
  ∧ cherche2 L x (Lst []) y nmin nmax = Some ∅
  ∧ cherche2 L x y (Lst []) nmin nmax = Some ∅.
Proof.
  split; [|split].
  - destruct (cherche2_sound L (Lst []) x y nmin nmax) as (R & -> & H).
    f_equal. apply set_eq. intros w. rewrite H. unfold compound_match.
    split; [|intros Hw; by apply not_elem_of_empty in Hw].
    intros (_ & _ & (p & Hp & _) & _). by apply elem_of_nil in Hp.
  - destruct (cherche2_sound L x (Lst []) y nmin nmax) as (R & -> & H).
    f_equal. apply set_eq. intros w. rewrite H. unfold compound_match.
    split; [|intros Hw; by apply not_elem_of_empty in Hw].
    intros (_ & _ & _ & _ & (m & i & Hm & _)). by apply elem_of_nil in Hm.
  - destruct (cherche2_sound L x y (Lst []) nmin nmax) as (R & -> & H).
    f_equal. apply set_eq. intros w. rewrite H. unfold compound_match.
    split; [|intros Hw; by apply not_elem_of_empty in Hw].
    intros (_ & _ & _ & (s & Hs & _) & _). by apply elem_of_nil in Hs.
Qed.

(** ** Totality *)

(** C6, as the code has it.  The queries always return.  A negative [n]
    gives the empty set; [n = 0] gives the empty words of [L], hence the
    empty set when [L] has no empty word.  [cherche2] returns for every
    input, and returns the empty set when [nmax < nmin]. *)
Theorem requetes_totales (L : gset word) (n : Z) (x y z : strs) (nmin nmax : Z) :
  ((n < 0)%Z → mots_de_n_lettres L n = ∅)
  ∧ mots_de_n_lettres L 0 = L ∩ {[ [] ]}
  ∧ ([] ∉ L → mots_de_n_lettres L 0 = ∅)
  ∧ (∃ R, cherche2 L x y z nmin nmax = Some R)
  ∧ ((nmax < nmin)%Z → cherche2 L x y z nmin nmax = Some ∅).
Proof.
  assert (H0 : ∀ w : word, len w = 0%Z ↔ w = []).
  { intros w. unfold len. destruct w; cbn [length]; split; (done || lia). }
  split; [|split; [|split; [|split]]].
  - intros Hn. apply set_eq. intros w. rewrite elem_of_mots_de_n_lettres.
    split; [|intros H; by apply not_elem_of_empty in H].
    unfold len. lia.
  - apply set_eq. intros w.
    rewrite elem_of_mots_de_n_lettres, elem_of_intersection, elem_of_singleton, H0.
    done.
  - intros Hnil. apply set_eq. intros w. rewrite elem_of_mots_de_n_lettres, H0.
    split; [|intros H; by apply not_elem_of_empty in H].
    intros [Hw ->]. done.
  - destruct (cherche2_sound L x y z nmin nmax) as (R & HR & _). eauto.
  - intros Hlt. destruct (cherche2_sound L x y z nmin nmax) as (R & -> & H).
    f_equal. apply set_eq. intros w. rewrite H. unfold compound_match.
    split; [|intros Hw; by apply not_elem_of_empty in Hw].
    intros (_ & Hb & _). lia.
Qed.

Lemma requetes_totales_witness :
  ((-1 < 0)%Z ∧ mots_de_n_lettres {[ ascii_word "a"; [] ]} (-1) = ∅)
  ∧ ((2 < 3)%Z
     ∧ cherche2 {[ ascii_word "a"; [] ]} (Str []) (Str []) (Str []) 3 2 = Some ∅).
Proof.
  pose proof (requetes_totales {[ ascii_word "a"; [] ]} (-1)
                (Str []) (Str []) (Str []) 3 2) as (H1 & _ & _ & _ & H2).
  split; (split; [lia|]).
  - apply H1. lia.
  - apply H2. lia.
Defined.

(** C6, as the specification has it, fails at [n = 0]: the lexicon that
    holds the empty word (a blank line of the file) gives it back. *)
Lemma mots_de_0_lettres_nonempty :
  mots_de_n_lettres {[ [] ]} 0 = {[ [] ]}
  ∧ mots_de_n_lettres {[ [] ]} 0 ≠ ∅.
Proof.
  assert (E : mots_de_n_lettres {[ [] ]} 0 = {[ [] ]}).
  { apply set_eq. intros w. rewrite elem_of_mots_de_n_lettres, elem_of_singleton.
    split; [tauto|]. intros ->. done. }
  split; [done|]. rewrite E. intros H.
  apply (not_elem_of_empty (C:=gset word) []). rewrite <- H.
  by apply elem_of_singleton.
Qed.

(** ** Loading *)

(** C9. [ensemble_mots] is [read_data] with its duplicates removed: it
    raises what [read_data] raises and nothing else, and otherwise returns
    the set of the words that occur in the list [read_data] returns. *)
Theorem ensemble_mots_dedup (ouvrir : string → exception + list word)
    (filename : string) :
  ensemble_mots ouvrir filename = load_set_spec ouvrir filename
  ∧ (∀ e, ensemble_mots ouvrir filename = inl e
          ↔ read_data ouvrir filename = inl e)
  ∧ (∀ mots, read_data ouvrir filename = inr mots →
       ∃ S, ensemble_mots ouvrir filename = inr S ∧ ∀ w, w ∈ S ↔ w ∈ mots).
Proof.
  unfold ensemble_mots, load_set_spec.
  destruct (read_data ouvrir filename) as [e|mots]; split; [done| |..].
  - split; [intros e'; split; intros [= <-]; reflexivity|]. intros mots [=].
  - f_equal. apply set_eq. intros w.
    by rewrite !elem_of_list_to_set, elem_of_remove_dups.
  - split; [intros e; split; intros [=]|]. intros ? [= <-].
    exists (list_to_set mots). split; [done|]. intros w.
    apply elem_of_list_to_set.
Qed.

Example ensemble_mots_doublons :
  let ouvrir := λ _ : string, inr [ascii_word "on "; ascii_word "on"; []] in
  read_data ouvrir "corpus.txt" = inr [ascii_word "on"; ascii_word "on"; []]
  ∧ ensemble_mots ouvrir "corpus.txt" = inr {[ ascii_word "on"; [] ]}.
Proof.
  intros ouvrir. split; reflexivity.
Qed.

(** ** More on loading: what [strip] leaves of a line *)

Module StripFacts.

Lemma blanc_app (a b : word) : blanc (a ++ b) ↔ blanc a ∧ blanc b.
Proof. unfold blanc. rewrite forallb_app, andb_true_iff. done. Qed.

Lemma blanc_rev (a : word) : blanc (rev a) ↔ blanc a.
Proof.
  unfold blanc. rewrite !forallb_forall.
  split; intros H c Hc; apply H; by apply in_rev in Hc.
Qed.

Lemma lstrip_split (s : word) : ∃ k, s = k ++ lstrip s ∧ blanc k.
Proof.
  induction s as [|c s (k & Hk & Hb)]; cbn [lstrip].
  - by exists [].
  - destruct (isspace c) eqn:E; [|by exists []].
    exists (c :: k). split; [cbn; congruence|].
    unfold blanc in *. cbn. by rewrite E.
Qed.

Lemma lstrip_head (s : word) (c : N) (r : word) :
  lstrip s = c :: r → isspace c = false.
Proof.
  induction s as [|d s IH]; cbn [lstrip]; [done|].
  destruct (isspace d) eqn:E; [done|]. by intros [= <- _].
Qed.

Lemma lstrip_blanc_app (a s : word) : blanc a → lstrip (a ++ s) = lstrip s.
Proof.
  unfold blanc. induction a as [|c a IH]; cbn; [done|].
  intros [-> H]%andb_true_iff. auto.
Qed.

Lemma lstrip_blanc (a : word) : blanc a → lstrip a = [].
Proof.
  intros H. rewrite <- (app_nil_r a). by rewrite lstrip_blanc_app.
Qed.

Lemma lstrip_fixed (s t : word) :
  (∀ c r, s = c :: r → isspace c = false) → s ≠ [] → lstrip (s ++ t) = s ++ t.
Proof.
  destruct s as [|c s]; [done|]. intros H _. cbn.
  by rewrite (H c s eq_refl).
Qed.

Lemma rev_cons_inv (s r : word) (c : N) : rev s = c :: r → s = rev r ++ [c].
Proof. intros H. rewrite <- (rev_involutive s), H. done. Qed.

Lemma strip_split (s : word) :
  ∃ a b, s = a ++ strip s ++ b ∧ blanc a ∧ blanc b.
Proof.
  unfold strip. destruct (lstrip_split s) as (a & Ha & Hba).
  destruct (lstrip_split (rev (lstrip s))) as (k & Hk & Hbk).
  exists a, (rev k). split; [|split; [done | by apply blanc_rev]].
  rewrite <- rev_app_distr, <- Hk, rev_involutive. done.
Qed.

Lemma strip_net (s : word) : net (strip s).
Proof.
  unfold strip, net. split.
  - intros c r Hc.
    destruct (lstrip_split (rev (lstrip s))) as (k & Hk & _).
    apply (f_equal (@rev N)) in Hk.
    rewrite rev_involutive, rev_app_distr, Hc in Hk. cbn in Hk.
    by apply lstrip_head in Hk.
  - intros r c Hc. apply (f_equal (@rev N)) in Hc.
    rewrite rev_involutive, rev_app_distr in Hc. cbn in Hc.
    by apply lstrip_head in Hc.
Qed.

(** [strip] gives back the piece between two runs of whitespace. *)
Lemma strip_unique (a t b : word) :
  blanc a → blanc b → net t → strip (a ++ t ++ b) = t.
Proof.
  intros Ha Hb [Hh Hl]. unfold strip. rewrite lstrip_blanc_app by done.
  destruct t as [|c r].
  - cbn. rewrite (lstrip_blanc b) by done. done.
  - rewrite lstrip_fixed by done.
    rewrite rev_app_distr, lstrip_blanc_app by (by apply blanc_rev).
    destruct (rev (c :: r)) as [|d u] eqn:E.
    { apply (f_equal (@length N)) in E. rewrite length_rev in E. done. }
    rewrite <- (app_nil_r (d :: u)), lstrip_fixed, app_nil_r, <- E, rev_involutive;
      [done | | done].
    intros d' u' [= <- <-]. apply (Hl (rev u)). by apply rev_cons_inv.
Qed.

End StripFacts.

Import StripFacts.

(** X1. [read_data] returns one word per line, in the order of the lines:
    the word of a line is the line without the whitespace that starts and
    ends it, and it neither starts nor ends with whitespace. *)
Theorem read_data_lignes (ouvrir : string → exception + list word)
    (filename : string) (lignes : list word) :
  ouvrir filename = inr lignes →
  ∃ mots, read_data ouvrir filename = inr mots
    ∧ length mots = length lignes
    ∧ ∀ i ligne, lignes !! i = Some ligne →
        ∃ mot a b, mots !! i = Some mot
          ∧ ligne = a ++ mot ++ b ∧ blanc a ∧ blanc b ∧ net mot.
Proof.
  intros Ho. unfold read_data. rewrite Ho. exists (map strip lignes).
  split; [done|]. split; [apply length_map|].
  intros i ligne Hi. destruct (strip_split ligne) as (a & b & Hs & Ha & Hb).
  exists (strip ligne), a, b. split.
  - change (map strip lignes) with (strip <$> lignes).
    by rewrite list_lookup_fmap, Hi.
  - split; [done|]. split; [done|]. split; [done|]. apply strip_net.
Qed.

Lemma read_data_lignes_witness :
  ∃ mots,
    read_data (λ _, inr [[32; 111; 110; 32; 10]%N; [10]%N]) FILENAME = inr mots
    ∧ length mots = 2%nat
    ∧ ∀ i ligne, [[32; 111; 110; 32; 10]%N; [10]%N] !! i = Some ligne →
        ∃ mot a b, mots !! i = Some mot
          ∧ ligne = a ++ mot ++ b ∧ blanc a ∧ blanc b ∧ net mot.
Proof.
  exact (read_data_lignes (λ _, inr [[32; 111; 110; 32; 10]%N; [10]%N])
           FILENAME [[32; 111; 110; 32; 10]%N; [10]%N] eq_refl).
Defined.

(** X2. Round trip: a file whose lines are the words that [read_data]
    returned, each followed by a newline, is read back as the same list
    of words. *)
Theorem read_data_round_trip (ouvrir : string → exception + list word)
    (f1 f2 : string) (mots : list word) :
  read_data ouvrir f1 = inr mots →
  ouvrir f2 = inr (map (λ mot, mot ++ [10%N]) mots) →
  read_data ouvrir f2 = inr mots.
Proof.
  unfold read_data. intros H1 H2. rewrite H2. f_equal.
  destruct (ouvrir f1) as [e|lignes]; [done|]. injection H1 as <-.
  rewrite !map_map. apply map_ext. intros ligne.
  rewrite <- (app_nil_l (strip ligne ++ [10%N])).
  apply strip_unique; [done | done | apply strip_net].
Qed.

Lemma read_data_round_trip_witness :
  read_data (λ f, if String.eqb f "brut.txt"
                  then inr [[32; 111; 110; 32; 10]%N; [10]%N]
                  else inr [[111; 110; 10]%N; [10]%N]) "net.txt"
  = inr [[111; 110]%N; []].
Proof.
  exact (read_data_round_trip
           (λ f, if String.eqb f "brut.txt"
                 then inr [[32; 111; 110; 32; 10]%N; [10]%N]
                 else inr [[111; 110; 10]%N; [10]%N])
           "brut.txt" "net.txt" [[111; 110]%N; []] eq_refl eq_refl).
Defined.

(** X3. A line gives the empty word exactly when it holds whitespace only
    (a blank line, for one); a line that neither starts nor ends with
    whitespace is kept as it is. *)
Theorem read_data_ligne_blanche (ouvrir : string → exception + list word)
    (filename : string) (lignes : list word) :
  ouvrir filename = inr lignes →
  ∃ mots, read_data ouvrir filename = inr mots
    ∧ ∀ i ligne mot, lignes !! i = Some ligne → mots !! i = Some mot →
        (mot = [] ↔ blanc ligne) ∧ (net ligne → mot = ligne).
Proof.
  intros Ho. unfold read_data. rewrite Ho. exists (map strip lignes).
  split; [done|]. intros i ligne mot Hi.
  change (map strip lignes) with (strip <$> lignes).
  rewrite list_lookup_fmap, Hi. intros [= <-]. split; [split|].
  - intros Hnil. destruct (strip_split ligne) as (a & b & Hs & Ha & Hb).
    rewrite Hnil in Hs. rewrite Hs. cbn. by apply blanc_app.
  - intros Hb. rewrite <- (app_nil_r ligne).
    apply (strip_unique ligne [] []); [done | done |].
    split; intros; by destruct r.
  - intros Hnet. rewrite <- (app_nil_r ligne) at 1.
    by apply (strip_unique [] ligne []).
Qed.

Lemma read_data_ligne_blanche_witness :
  ∃ mots,
    read_data (λ _, inr [[32; 9; 10]%N; [111; 110]%N]) FILENAME = inr mots
    ∧ ∀ i ligne mot, [[32; 9; 10]%N; [111; 110]%N] !! i = Some ligne →
        mots !! i = Some mot →
        (mot = [] ↔ blanc ligne) ∧ (net ligne → mot = ligne).
Proof.
  exact (read_data_ligne_blanche (λ _, inr [[32; 9; 10]%N; [111; 110]%N])
           FILENAME [[32; 9; 10]%N; [111; 110]%N] eq_refl).
Defined.

(** X4. The size of the lexicon: [ensemble_mots] never holds more words
    than [read_data] lists, and holds as many exactly when no word is
    listed twice. *)
Theorem ensemble_mots_taille (ouvrir : string → exception + list word)
    (filename : string) (mots : list word) :
  read_data ouvrir filename = inr mots →
  ∃ S, ensemble_mots ouvrir filename = inr S
    ∧ (size S ≤ length mots)%nat
    ∧ (size S = length mots ↔ NoDup mots).
Proof.
  intros Hr. unfold ensemble_mots. rewrite Hr.
  exists (list_to_set mots). split; [done|].
  assert (Hsize : size (list_to_set (C:=gset word) mots) = length (remove_dups mots)).
  { rewrite <- (size_list_to_set (C:=gset word) (remove_dups mots))
      by apply NoDup_remove_dups.
    f_equal. apply set_eq. intros w.
    by rewrite !elem_of_list_to_set, elem_of_remove_dups. }
  rewrite Hsize. clear Hr Hsize.
  assert (Hle : ∀ l : list word, (length (remove_dups l) ≤ length l)%nat).
  { induction l as [|x l IH]; cbn; [done|]. case_decide; cbn; lia. }
  split; [apply Hle|]. split.
  - induction mots as [|x l IH]; cbn; [constructor|].
    case_decide as Hx; cbn.
    + pose proof (Hle l). lia.
    + intros [= Hl]. constructor; [done | auto].
  - induction 1 as [|x l Hx _ IH]; cbn; [done|].
    case_decide; [done|]. cbn. by rewrite IH.
Qed.

Lemma ensemble_mots_taille_witness :
  ∃ S, ensemble_mots (λ _, inr [[111; 110; 10]%N; [111; 110; 32; 10]%N]) FILENAME
       = inr S
    ∧ (size S ≤ 2)%nat
    ∧ (size S = 2%nat ↔ NoDup [[111; 110]%N; [111; 110]%N]).
Proof.
  exact (ensemble_mots_taille
           (λ _, inr [[111; 110; 10]%N; [111; 110; 32; 10]%N]) FILENAME
           [[111; 110]%N; [111; 110]%N] eq_refl).
Defined.

(** ** More on the query functions *)

(** X5. The anchored search works on the words of [n] letters only: it
    gives the same on [L] and on [mots_de_n_lettres L n], it is a part of
    [mots_de_n_lettres L n], and with the empty prefix and the empty
    suffix it is [mots_de_n_lettres L n]. *)
Theorem cherche1_longueur (L : gset word) (p s : word) (n : Z) :
  cherche1 (mots_de_n_lettres L n) p s n = cherche1 L p s n
  ∧ cherche1 L p s n ⊆ mots_de_n_lettres L n
  ∧ cherche1 L [] [] n = mots_de_n_lettres L n.
Proof.
  split; [|split].
  - apply set_eq. intros w.
    rewrite !elem_of_cherche1, elem_of_mots_de_n_lettres. tauto.
  - intros w. rewrite elem_of_cherche1, elem_of_mots_de_n_lettres. tauto.
  - apply set_eq. intros w.
    rewrite elem_of_cherche1, elem_of_mots_de_n_lettres.
    split; [tauto|]. intros [? ?].
    split; [done|]. split; [done|]. split; [apply prefix_nil | apply suffix_nil].
Qed.

(** X6. When the prefix and the suffix fit in [n] letters without
    overlap, the words the anchored search finds are the words of [L] made
    of the prefix, [n - len(p) - len(s)] letters, and the suffix. *)
Theorem cherche1_decoupe (L : gset word) (p s : word) (n : Z) (w : word) :
  (len p + len s ≤ n)%Z →
  w ∈ cherche1 L p s n
  ↔ w ∈ L ∧ ∃ milieu, w = p ++ milieu ++ s ∧ len milieu = (n - len p - len s)%Z.
Proof.
  intros Hn. rewrite elem_of_cherche1. unfold len in *. split.
  - intros (Hw & Hlen & [k Hk] & [k' Hk']). split; [done|].
    rewrite Hk in Hk'. rewrite Hk, length_app in Hlen.
    apply app_eq_inv in Hk' as [(k0 & -> & ->)|(k0 & -> & ->)].
    + rewrite !length_app in *.
      assert (k0 = []) as -> by (apply length_zero_iff_nil; lia).
      exists []. rewrite !app_nil_r in *. cbn [app length] in *.
      split; [done | lia].
    + exists k0. split; [done|]. rewrite !length_app in *. lia.
  - intros (Hw & milieu & -> & Hm). split; [done|].
    split; [rewrite !length_app; lia|].
    split; [by eexists | exists (p ++ milieu); by rewrite app_assoc].
Qed.

Lemma cherche1_decoupe_witness :
  (len (ascii_word "z") + len (ascii_word "ez") ≤ 5)%Z
  ∧ (ascii_word "zonez" ∈ cherche1 {[ ascii_word "zonez" ]} (ascii_word "z")
                            (ascii_word "ez") 5
     ↔ ascii_word "zonez" ∈ ({[ ascii_word "zonez" ]} : gset word)
       ∧ ∃ milieu, ascii_word "zonez" = ascii_word "z" ++ milieu ++ ascii_word "ez"
                   ∧ len milieu = (5 - len (ascii_word "z") - len (ascii_word "ez"))%Z).
Proof.
  split; [vm_compute; discriminate|].
  apply (cherche1_decoupe {[ ascii_word "zonez" ]} (ascii_word "z")
           (ascii_word "ez") 5 (ascii_word "zonez")).
  vm_compute. discriminate.
Defined.

Lemma occurs_at_trans (w s2 s1 : word) (i j : nat) :
  occurs_at w s2 i → occurs_at s2 s1 j → occurs_at w s1 (i + j).
Proof.
  intros (a & b & -> & <-) (c & d & -> & <-).
  exists (a ++ c), (d ++ b). split; [by rewrite <- !app_assoc | apply length_app].
Qed.

(** X7. A longer fragment finds fewer words: when [s1] occurs in [s2],
    every word that holds [s2] holds [s1].  A word found for a fragment
    is at least as long as the fragment, and a word of [L] is found for
    itself. *)
Theorem mots_avec_fragment (L : gset word) (s1 s2 : word) :
  str_in s1 s2 = true →
  mots_avec L s2 ⊆ mots_avec L s1
  ∧ (∀ w, w ∈ mots_avec L s2 → (len s2 ≤ len w)%Z)
  ∧ (∀ w, w ∈ L → w ∈ mots_avec L w).
Proof.
  intros [j Hj]%str_in_occurs. split; [|split].
  - intros w. rewrite !elem_of_mots_avec. intros [Hw [i Hi]].
    split; [done|]. exists (i + j)%nat. by eapply occurs_at_trans.
  - intros w [_ [i Hi]]%elem_of_mots_avec.
    apply occurs_at_length in Hi. unfold len. lia.
  - intros w Hw. apply elem_of_mots_avec. split; [done|].
    exists 0%nat, [], []. by rewrite app_nil_r.
Qed.

Lemma mots_avec_fragment_witness :
  str_in (ascii_word "k") (ascii_word "ck") = true
  ∧ mots_avec {[ ascii_word "dock"; ascii_word "coke" ]} (ascii_word "ck")
    ⊆ mots_avec {[ ascii_word "dock"; ascii_word "coke" ]} (ascii_word "k").
Proof.
  split; [reflexivity|].
  exact (proj1 (mots_avec_fragment {[ ascii_word "dock"; ascii_word "coke" ]}
                  (ascii_word "k") (ascii_word "ck") eq_refl)).
Defined.

(** X8. The length filter and the substring filter can be chained in
    either order, and chaining a filter with itself changes nothing; two
    substring filters commute. *)
Theorem filtres_composes (L : gset word) (n : Z) (s t : word) :
  mots_avec (mots_de_n_lettres L n) s = mots_de_n_lettres (mots_avec L s) n
  ∧ mots_avec (mots_avec L s) t = mots_avec (mots_avec L t) s
  ∧ mots_avec (mots_avec L s) s = mots_avec L s
  ∧ mots_de_n_lettres (mots_de_n_lettres L n) n = mots_de_n_lettres L n.
Proof.
  repeat split; apply set_eq; intros w;
    rewrite ?elem_of_mots_avec, ?elem_of_mots_de_n_lettres,
      ?elem_of_mots_avec, ?elem_of_mots_de_n_lettres; tauto.
Qed.

(** ** More on the compound search *)

Module Cherche2Facts.

(** A set with the members of the contract is what [cherche2] returns. *)
Lemma cherche2_unique (L : gset word) (x y z : strs) (nmin nmax : Z)
    (R : gset word) :
  (∀ w, w ∈ R ↔
        w ∈ L ∧ compound_match (as_list x) (as_list y) (as_list z) nmin nmax w) →
  cherche2 L x y z nmin nmax = Some R.
Proof.
  intros HR. destruct (cherche2_sound L x y z nmin nmax) as (R' & -> & H).
  f_equal. apply set_eq. intros w. by rewrite H, HR.
Qed.

Lemma strict_interior_length (w m : word) (i : nat) :
  strict_interior w m i → (len m + 2 ≤ len w)%Z.
Proof. intros (_ & H1 & H2). unfold len. lia. Qed.

End Cherche2Facts.

Import Cherche2Facts.

(** X9. The order in which the words of the set are visited does not
    change the result of [cherche2]: the loop run over any arrangement of
    the words gives the same set. *)
Theorem cherche2_ordre_parcours (L : gset word) (x y z : strs) (nmin nmax : Z)
    (l : list word) :
  l ≡ₚ elements L →
  pour_chaque (corps (as_list x) (as_list y) (as_list z) nmin nmax) l ∅
  = cherche2 L x y z nmin nmax.
Proof.
  intros Hl.
  destruct (pour_chaque_corps (as_list x) (as_list y) (as_list z) nmin nmax l ∅)
    as (R & -> & H).
  symmetry. apply cherche2_unique. intros w. rewrite H, Hl, elem_of_elements.
  split; [intros [Hw|?]; [by apply not_elem_of_empty in Hw | done] | tauto].
Qed.

Lemma cherche2_ordre_parcours_witness :
  pour_chaque (corps [ascii_word "a"] [ascii_word "b"] [ascii_word "z"] 3 5)
    (reverse (elements ({[ ascii_word "abz"; ascii_word "az" ]} : gset word))) ∅
  = cherche2 {[ ascii_word "abz"; ascii_word "az" ]} (Str (ascii_word "a"))
      (Str (ascii_word "b")) (Str (ascii_word "z")) 3 5.
Proof.
  apply (cherche2_ordre_parcours {[ ascii_word "abz"; ascii_word "az" ]}
           (Str (ascii_word "a")) (Str (ascii_word "b")) (Str (ascii_word "z"))
           3 5).
  apply reverse_Permutation.
Defined.

(** X10. [cherche2] only picks words of [L]; on a union of two lexicons
    it gives the union of the two results; and run again on its own
    result it gives that result back. *)
Theorem cherche2_union (L1 L2 : gset word) (x y z : strs) (nmin nmax : Z) :
  ∃ R1 R2,
    cherche2 L1 x y z nmin nmax = Some R1
    ∧ cherche2 L2 x y z nmin nmax = Some R2
    ∧ cherche2 (L1 ∪ L2) x y z nmin nmax = Some (R1 ∪ R2)
    ∧ R1 ⊆ L1
    ∧ cherche2 R1 x y z nmin nmax = Some R1.
Proof.
  destruct (cherche2_sound L1 x y z nmin nmax) as (R1 & HR1 & H1).
  destruct (cherche2_sound L2 x y z nmin nmax) as (R2 & HR2 & H2).
  exists R1, R2. split; [done|]. split; [done|]. split; [|split].
  - apply cherche2_unique. intros w. rewrite !elem_of_union, H1, H2. tauto.
  - intros w Hw. by apply H1 in Hw as [? _].
  - apply cherche2_unique. intros w. rewrite H1. tauto.
Qed.

(** X11. With one prefix, one interior string, one suffix and
    [nmin = nmax = n], [cherche2] keeps, of the words [cherche1] finds for
    that prefix, suffix and length, those that hold the interior string
    strictly inside; all of them are words [mots_avec] finds. *)
Theorem cherche2_via_cherche1 (L : gset word) (p m s : word) (n : Z) :
  ∃ R, cherche2 L (Str p) (Str m) (Str s) n n = Some R
    ∧ (∀ w, w ∈ R ↔ w ∈ cherche1 L p s n ∧ ∃ i, strict_interior w m i)
    ∧ R ⊆ cherche1 L p s n ∩ mots_avec L m.
Proof.
  destruct (cherche2_sound L (Str p) (Str m) (Str s) n n) as (R & HR & H).
  assert (H' : ∀ w, w ∈ R ↔ w ∈ cherche1 L p s n ∧ ∃ i, strict_interior w m i).
  { intros w. rewrite H, elem_of_cherche1. unfold compound_match. cbn [as_list].
    split.
    - intros (Hw & Hlen & (p' & ->%list_elem_of_singleton & Hp)
              & (s' & ->%list_elem_of_singleton & Hs)
              & (m' & i & ->%list_elem_of_singleton & Hi)).
      split; [|eauto]. split; [done|]. split; [lia | done].
    - intros ((Hw & Hlen & Hp & Hs) & i & Hi). split; [done|].
      split; [lia|]. split; [|split].
      + exists p. split; [apply list_elem_of_here | done].
      + exists s. split; [apply list_elem_of_here | done].
      + exists m, i. split; [apply list_elem_of_here | done]. }
  exists R. split; [done|]. split; [done|].
  intros w [Hc (i & Hocc & _)]%H'. apply elem_of_intersection. split; [done|].
  apply elem_of_mots_avec. split; [|eauto].
  by apply elem_of_cherche1 in Hc as [? _].
Qed.

(** X12. A word that [cherche2] returns is at least two letters longer
    than one of the interior strings; so nothing is returned when
    [nmax < 2], or when every interior string is longer than [nmax - 2]. *)
Theorem cherche2_longueur_min (L : gset word) (x y z : strs) (nmin nmax : Z) :
  ∃ R, cherche2 L x y z nmin nmax = Some R
    ∧ (∀ w, w ∈ R → ∃ m, m ∈ as_list y ∧ (len m + 2 ≤ len w ≤ nmax)%Z)
    ∧ ((nmax < 2)%Z → R = ∅)
    ∧ ((∀ m, m ∈ as_list y → (nmax - 2 < len m)%Z) → R = ∅).
Proof.
  destruct (cherche2_sound L x y z nmin nmax) as (R & HR & H).
  assert (Hmin : ∀ w, w ∈ R → ∃ m, m ∈ as_list y ∧ (len m + 2 ≤ len w ≤ nmax)%Z).
  { intros w (_ & Hlen & _ & _ & (m & i & Hm & Hi))%H.
    apply strict_interior_length in Hi. exists m. split; [done | lia]. }
  exists R. split; [done|]. split; [done|]. split.
  - intros Hn. apply set_eq. intros w.
    split; [|intros Hw; by apply not_elem_of_empty in Hw].
    intros (m & _ & Hlen)%Hmin. unfold len in Hlen. lia.
  - intros Hy. apply set_eq. intros w.
    split; [|intros Hw; by apply not_elem_of_empty in Hw].
    intros (m & Hm & Hlen)%Hmin. apply Hy in Hm. lia.
Qed.

(** X13. Only which strings are in the three lists counts for [cherche2],
    not their order nor how often they are listed. *)
Theorem cherche2_listes_ensembles (L : gset word)
    (ps ps' ms ms' ss ss' : list word) (nmin nmax : Z) :
  (∀ p, p ∈ ps ↔ p ∈ ps') → (∀ m, m ∈ ms ↔ m ∈ ms') → (∀ s, s ∈ ss ↔ s ∈ ss') →
  cherche2 L (Lst ps) (Lst ms) (Lst ss) nmin nmax
  = cherche2 L (Lst ps') (Lst ms') (Lst ss') nmin nmax.
Proof.
  intros Hp Hm Hs.
  destruct (cherche2_sound L (Lst ps') (Lst ms') (Lst ss') nmin nmax)
    as (R & -> & H).
  apply cherche2_unique. intros w. rewrite H.
  unfold compound_match. cbn [as_list].
  setoid_rewrite Hp. setoid_rewrite Hm. setoid_rewrite Hs. done.
Qed.

Lemma cherche2_listes_ensembles_witness :
  cherche2 {[ ascii_word "abz" ]} (Lst [ascii_word "a"; ascii_word "c"])
    (Lst [ascii_word "b"]) (Lst [ascii_word "z"]) 3 3
  = cherche2 {[ ascii_word "abz" ]}
      (Lst [ascii_word "c"; ascii_word "a"; ascii_word "c"])
      (Lst [ascii_word "b"; ascii_word "b"]) (Lst [ascii_word "z"]) 3 3.
Proof.
  apply (cherche2_listes_ensembles {[ ascii_word "abz" ]}
           [ascii_word "a"; ascii_word "c"]
           [ascii_word "c"; ascii_word "a"; ascii_word "c"]
           [ascii_word "b"] [ascii_word "b"; ascii_word "b"]
           [ascii_word "z"] [ascii_word "z"] 3 3).
  - intros p. rewrite !elem_of_cons. tauto.
  - intros m. rewrite !elem_of_cons. tauto.
  - done.
Defined.

(** X14. Listing more strings adds results: for two lists of prefixes put
    end to end, [cherche2] gives the union of the results for each list,
    and likewise for the interior strings and for the suffixes. *)
Theorem cherche2_concat (L : gset word) (l1 l2 : list word) (x y : strs)
    (nmin nmax : Z) :
  (∃ R1 R2, cherche2 L (Lst l1) x y nmin nmax = Some R1
            ∧ cherche2 L (Lst l2) x y nmin nmax = Some R2
            ∧ cherche2 L (Lst (l1 ++ l2)) x y nmin nmax = Some (R1 ∪ R2))
  ∧ (∃ R1 R2, cherche2 L x (Lst l1) y nmin nmax = Some R1
              ∧ cherche2 L x (Lst l2) y nmin nmax = Some R2
              ∧ cherche2 L x (Lst (l1 ++ l2)) y nmin nmax = Some (R1 ∪ R2))
  ∧ (∃ R1 R2, cherche2 L x y (Lst l1) nmin nmax = Some R1
              ∧ cherche2 L x y (Lst l2) nmin nmax = Some R2
              ∧ cherche2 L x y (Lst (l1 ++ l2)) nmin nmax = Some (R1 ∪ R2)).
Proof.
  split; [|split].
  - destruct (cherche2_sound L (Lst l1) x y nmin nmax) as (R1 & HR1 & H1).
    destruct (cherche2_sound L (Lst l2) x y nmin nmax) as (R2 & HR2 & H2).
    exists R1, R2. split; [done|]. split; [done|].
    apply cherche2_unique. intros w. rewrite elem_of_union, H1, H2.
    unfold compound_match. cbn [as_list]. setoid_rewrite elem_of_app.
    split.
    + intros [(? & ? & (p & ? & ?) & ?)|(? & ? & (p & ? & ?) & ?)];
        (split; [done|]); (split; [done|]); (split; [exists p; tauto | done]).
    + intros (? & ? & (p & [?|?] & ?) & ?); [left | right];
        (split; [done|]); (split; [done|]); (split; [by exists p | done]).
  - destruct (cherche2_sound L x (Lst l1) y nmin nmax) as (R1 & HR1 & H1).
    destruct (cherche2_sound L x (Lst l2) y nmin nmax) as (R2 & HR2 & H2).
    exists R1, R2. split; [done|]. split; [done|].
    apply cherche2_unique. intros w. rewrite elem_of_union, H1, H2.
    unfold compound_match. cbn [as_list]. setoid_rewrite elem_of_app.
    split.
    + intros [(? & ? & ? & ? & (m & i & ? & ?))|(? & ? & ? & ? & (m & i & ? & ?))];
        (split; [done|]); (split; [done|]); (split; [done|]);
        (split; [done | exists m, i; tauto]).
    + intros (? & ? & ? & ? & (m & i & [?|?] & ?)); [left | right];
        (split; [done|]); (split; [done|]); (split; [done|]);
        (split; [done | by exists m, i]).
  - destruct (cherche2_sound L x y (Lst l1) nmin nmax) as (R1 & HR1 & H1).
    destruct (cherche2_sound L x y (Lst l2) nmin nmax) as (R2 & HR2 & H2).
    exists R1, R2. split; [done|]. split; [done|].
    apply cherche2_unique. intros w. rewrite elem_of_union, H1, H2.
    unfold compound_match. cbn [as_list]. setoid_rewrite elem_of_app.
    split.
    + intros [(? & ? & ? & (s & ? & ?) & ?)|(? & ? & ? & (s & ? & ?) & ?)];
        (split; [done|]); (split; [done|]); (split; [done|]);
        (split; [exists s; tauto | done]).
    + intros (? & ? & ? & (s & [?|?] & ?) & ?); [left | right];
        (split; [done|]); (split; [done|]); (split; [done|]);
        (split; [by exists s | done]).
Qed.

(** X15. The empty string as prefix and as suffix asks nothing of a word:
    [cherche2] then returns the words of [L] within the length bounds
    that hold one of the interior strings strictly inside.  With the
    empty string as interior string as well, these are the words of at
    least two letters within the bounds. *)
Theorem cherche2_motifs_vides (L : gset word) (y : strs) (nmin nmax : Z) :
  (∃ R, cherche2 L (Str []) y (Str []) nmin nmax = Some R
     ∧ ∀ w, w ∈ R ↔ w ∈ L ∧ (nmin ≤ len w ≤ nmax)%Z
                     ∧ ∃ m i, m ∈ as_list y ∧ strict_interior w m i)
  ∧ (∃ R, cherche2 L (Str []) (Str []) (Str []) nmin nmax = Some R
       ∧ ∀ w, w ∈ R ↔ w ∈ L ∧ (nmin ≤ len w ≤ nmax)%Z ∧ (2 ≤ len w)%Z).
Proof.
  split.
  - destruct (cherche2_sound L (Str []) y (Str []) nmin nmax) as (R & HR & H).
    exists R. split; [done|]. intros w. rewrite H.
    unfold compound_match. cbn [as_list]. split; [tauto|].
    intros (Hw & Hlen & Hm). split; [done|]. split; [done|]. split; [|split].
    + exists []. split; [apply list_elem_of_here | apply prefix_nil].
    + exists []. split; [apply list_elem_of_here | apply suffix_nil].
    + done.
  - destruct (cherche2_sound L (Str []) (Str []) (Str []) nmin nmax)
      as (R & HR & H).
    exists R. split; [done|]. intros w. rewrite H.
    unfold compound_match. cbn [as_list]. split.
    + intros (Hw & Hlen & _ & _ & (m & i & ->%list_elem_of_singleton & Hi)).
      apply strict_interior_nil in Hi. unfold len in *. split; [done|]. lia.
    + intros (Hw & Hlen & H2). split; [done|]. split; [done|]. split; [|split].
      * exists []. split; [apply list_elem_of_here | apply prefix_nil].
      * exists []. split; [apply list_elem_of_here | apply suffix_nil].
      * exists [], 1%nat. split; [apply list_elem_of_here|].
        apply strict_interior_nil. unfold len in H2. lia.
Qed.

(** X16. For [n >= 2], the compound search with three empty strings and
    [nmin = nmax = n] is the length filter. *)
Theorem cherche2_mots_de_n_lettres (L : gset word) (n : Z) :
  (2 ≤ n)%Z →
  cherche2 L (Str []) (Str []) (Str []) n n = Some (mots_de_n_lettres L n).
Proof.
  intros Hn. apply cherche2_unique. intros w.
  rewrite elem_of_mots_de_n_lettres. unfold compound_match. cbn [as_list].
  split.
  - intros [Hw Hlen]. split; [done|]. split; [lia|]. split; [|split].
    + exists []. split; [apply list_elem_of_here | apply prefix_nil].
    + exists []. split; [apply list_elem_of_here | apply suffix_nil].
    + exists [], 1%nat. split; [apply list_elem_of_here|].
      apply strict_interior_nil. unfold len in Hlen. lia.
  - intros (Hw & Hlen & _). split; [done | lia].
Qed.

Lemma cherche2_mots_de_n_lettres_witness :
  (2 ≤ 3)%Z
  ∧ cherche2 {[ ascii_word "abz"; ascii_word "az" ]} (Str []) (Str []) (Str []) 3 3
    = Some (mots_de_n_lettres {[ ascii_word "abz"; ascii_word "az" ]} 3).
Proof.
  split; [lia|].
  apply (cherche2_mots_de_n_lettres {[ ascii_word "abz"; ascii_word "az" ]} 3).
  lia.
Defined.

(** X17. The length range can be cut in two: for [nmin - 1 <= k <= nmax],
    the result for [nmin .. nmax] is the union of the results for
    [nmin .. k] and for [k + 1 .. nmax], which share no word. *)
Theorem cherche2_coupe_intervalle (L : gset word) (x y z : strs)
    (nmin k nmax : Z) :
  (nmin - 1 ≤ k ≤ nmax)%Z →
  ∃ R1 R2,
    cherche2 L x y z nmin k = Some R1
    ∧ cherche2 L x y z (k + 1) nmax = Some R2
    ∧ cherche2 L x y z nmin nmax = Some (R1 ∪ R2)
    ∧ R1 ## R2.
Proof.
  intros Hk.
  destruct (cherche2_sound L x y z nmin k) as (R1 & HR1 & H1).
  destruct (cherche2_sound L x y z (k + 1) nmax) as (R2 & HR2 & H2).
  exists R1, R2. split; [done|]. split; [done|]. split.
  - apply cherche2_unique. intros w. rewrite elem_of_union, H1, H2.
    unfold compound_match. split.
    + intros [(? & ? & ?)|(? & ? & ?)]; (split; [done|]); (split; [lia | done]).
    + intros (? & ? & ?). destruct (decide (len w ≤ k)%Z); [left | right];
        (split; [done|]); (split; [lia | done]).
  - intros w (_ & Hl1 & _)%H1 (_ & Hl2 & _)%H2. lia.
Qed.

Lemma cherche2_coupe_intervalle_witness :
  ∃ R1 R2,
    cherche2 {[ ascii_word "abz"; ascii_word "abbz" ]} (Str (ascii_word "a"))
      (Str (ascii_word "b")) (Str (ascii_word "z")) 3 3 = Some R1
    ∧ cherche2 {[ ascii_word "abz"; ascii_word "abbz" ]} (Str (ascii_word "a"))
        (Str (ascii_word "b")) (Str (ascii_word "z")) (3 + 1) 4 = Some R2
    ∧ cherche2 {[ ascii_word "abz"; ascii_word "abbz" ]} (Str (ascii_word "a"))
        (Str (ascii_word "b")) (Str (ascii_word "z")) 3 4 = Some (R1 ∪ R2)
    ∧ R1 ## R2.
Proof.
  apply (cherche2_coupe_intervalle {[ ascii_word "abz"; ascii_word "abbz" ]}
           (Str (ascii_word "a")) (Str (ascii_word "b")) (Str (ascii_word "z"))
           3 3 4).
  lia.
Defined.

(** ** The global constants *)

(** X18. The vowels and the consonants share the alphabet between them:
    the 6 vowels followed by the 20 consonants are the 26 letters of the
    alphabet in another order, no letter is listed twice, and every entry
    is a string of one letter. *)
Theorem voyelles_consonnes_alphabet :
  VOYELLES ++ CONSONNES ≡ₚ ALPHABET
  ∧ NoDup ALPHABET
  ∧ (∀ l, l ∈ VOYELLES → l ∉ CONSONNES)
  ∧ Forall (λ l, length l = 1%nat) ALPHABET
  ∧ length VOYELLES = 6%nat ∧ length CONSONNES = 20%nat
  ∧ length ALPHABET = 26%nat.
Proof.
  assert (HP : VOYELLES ++ CONSONNES ≡ₚ ALPHABET)
    by (apply (bool_decide_unpack _); vm_compute; exact I).
  assert (HN : NoDup ALPHABET)
    by (apply (bool_decide_unpack _); vm_compute; exact I).
  split; [done|]. split; [done|]. split; [|split; [|done]].
  - rewrite <- HP in HN. apply NoDup_app in HN as (_ & H & _). exact H.
  - apply (bool_decide_unpack _). vm_compute. exact I.
Qed.

(** ** Counting by length *)

Lemma size_union_mots_de_n_lettres (L : gset word) (ns : list Z) :
  NoDup ns →
  size (⋃ (mots_de_n_lettres L <$> ns))
  = sum_list (size <$> (mots_de_n_lettres L <$> ns)).
Proof.
  induction 1 as [|n ns Hn _ IH]; cbn; [apply size_empty|].
  rewrite size_union, IH; [done|].
  intros w Hw (X & (n' & -> & Hn')%list_elem_of_fmap & Hw')%elem_of_union_list.
  apply elem_of_mots_de_n_lettres in Hw as [_ <-].
  apply elem_of_mots_de_n_lettres in Hw' as [_ <-]. done.
Qed.

(** X19. The numbers of words of each length add up to the number of
    words: the sizes of [mots_de_n_lettres L n], summed over the lengths
    [n] that occur in [L], give the size of [L]; and no single length
    has more words than [L]. *)
Theorem mots_de_n_lettres_tailles (L : gset word) :
  sum_list (size <$> (mots_de_n_lettres L <$> elements (longueurs L))) = size L
  ∧ ∀ n, (size (mots_de_n_lettres L n) ≤ size L)%nat.
Proof.
  split.
  - rewrite <- size_union_mots_de_n_lettres by apply NoDup_elements.
    f_equal. apply set_eq. intros w. rewrite elem_of_union_list. split.
    + intros (X & (n & -> & _)%list_elem_of_fmap & Hw).
      by apply elem_of_mots_de_n_lettres in Hw as [? _].
    + intros Hw. exists (mots_de_n_lettres L (len w)). split.
      * apply list_elem_of_fmap. exists (len w). split; [done|].
        apply elem_of_elements, elem_of_map. by exists w.
      * by apply elem_of_mots_de_n_lettres.
  - intros n. apply subseteq_size. intros w Hw.
    by apply elem_of_mots_de_n_lettres in Hw as [? _].
Qed.
